(** * quickfuzz: a shallow embedding of [src/main.rs]

    The program reads candidate lines from standard input, lets the user edit
    a query in a terminal UI, keeps the candidates filtered by a character
    count score, and prints the confirmed candidate.  This file embeds the
    filter engine ([fuzzy_find], [compute_fuzzy_find_score]), one iteration
    of the event loop of [run_app], the loop itself over a finite stream of
    terminal inputs, and [inner_main] / [main] with the terminal effects they
    perform, recorded in an output log. *)

From Stdlib Require Import List Arith Lia Bool String Ascii Permutation Sorted.
Import ListNotations.

(* ------------------------------------------------------------------ *)
(** ** Data *)

(** A Rust [char] is a Unicode scalar value; it is kept as its code point.
    A Rust [String] is the sequence of its [chars()]. *)
Definition rchar := nat.
Definition rstring := list rchar.

(** ASCII literals as Rust strings, for concrete inputs. *)
Fixpoint rs (s : string) : rstring :=
  match s with
  | EmptyString => []
  | String a s' => nat_of_ascii a :: rs s'
  end.

(* ------------------------------------------------------------------ *)
(** ** Filter engine *)

(** [compute_fuzzy_find_score]:
    [query.chars().map(|c| subject.chars().filter(|cc| c == *cc).count()).sum()] *)
Definition compute_fuzzy_find_score (query subject : rstring) : nat :=
  list_sum (map (fun c => List.length (filter (fun cc => Nat.eqb c cc) subject)) query).

(** [list.iter().enumerate()] *)
Fixpoint enumerate_from {A} (i : nat) (l : list A) : list (nat * A) :=
  match l with
  | [] => []
  | x :: l' => (i, x) :: enumerate_from (S i) l'
  end.

Definition enumerate {A} (l : list A) : list (nat * A) := enumerate_from 0 l.

(** [slice::sort_by_key] is a stable sort.  It is embedded as a stable
    insertion sort: an element goes in front of the first element whose key
    is not smaller, so it stays behind the equal keys that preceded it. *)
Section SortByKey.
Context {A : Type} (key : A -> nat).

Fixpoint insert_by_key (x : A) (l : list A) : list A :=
  match l with
  | [] => [x]
  | y :: l' => if key x <=? key y then x :: y :: l' else y :: insert_by_key x l'
  end.

Fixpoint sort_by_key (l : list A) : list A :=
  match l with
  | [] => []
  | x :: l' => insert_by_key x (sort_by_key l')
  end.
End SortByKey.

(** [Option::unwrap] on every element, the [None] outcome standing for the
    panic. *)
Fixpoint unwrap_all {A} (l : list (option A)) : option (list A) :=
  match l with
  | [] => Some []
  | Some x :: l' => option_map (cons x) (unwrap_all l')
  | None :: _ => None
  end.

(** [fuzzy_find]; [None] is the panic of [list.get(i).unwrap()]. *)
Definition fuzzy_find (query : rstring) (list : Datatypes.list rstring)
  : option (Datatypes.list rstring) :=
  match query with
  | [] => Some list
  | _ :: _ =>
      let scores :=
        filter (fun p => 0 <? snd p)
          (map (fun p => (fst p, compute_fuzzy_find_score query (snd p)))
             (enumerate list)) in
      let scores := sort_by_key snd scores in
      unwrap_all (map (fun p => nth_error list (fst p)) scores)
  end.

Example fuzzy_find_ap :
  fuzzy_find (rs "ap") [rs "apple"; rs "banana"; rs "grape"]
  = Some [rs "grape"; rs "apple"; rs "banana"].
Proof. reflexivity. Qed.

(* ------------------------------------------------------------------ *)
(** ** Terminal inputs and the line editor *)

(** The [KeyCode]s the program tells apart, plus the editing keys the
    [tui_input] widget reacts to; every other key code is [KOther]. *)
Inductive KeyCode :=
| KChar (c : rchar) | KBackspace | KDelete | KLeft | KRight | KHome | KEnd
| KEnter | KEsc | KUp | KDown | KOther.

(** crossterm's [Event]. *)
Inductive Event :=
| Key (code : KeyCode)
| Mouse
| FocusGained
| FocusLost
| Paste (text : rstring)
| Resize (w h : nat).

(** The [tui_input::Input] widget: its text and its cursor, counted in
    chars.  [handle_event] is the widget's key handling (insertion at the
    cursor, deletion around it, cursor moves); other keys leave it as is. *)
Record Input := mkInput { value : rstring; cursor : nat }.

Definition input_default : Input := mkInput [] 0.

Definition remove_at (i : nat) (s : rstring) : rstring := firstn i s ++ skipn (S i) s.

Definition handle_event (k : KeyCode) (w : Input) : Input :=
  let n := List.length (value w) in
  match k with
  | KChar c => mkInput (firstn (cursor w) (value w) ++ c :: skipn (cursor w) (value w))
                       (S (cursor w))
  | KBackspace =>
      match cursor w with
      | 0 => w
      | S i => mkInput (remove_at i (value w)) i
      end
  | KDelete => if cursor w <? n then mkInput (remove_at (cursor w) (value w)) (cursor w) else w
  | KLeft => mkInput (value w) (pred (cursor w))
  | KRight => mkInput (value w) (Nat.min (S (cursor w)) n)
  | KHome => mkInput (value w) 0
  | KEnd => mkInput (value w) n
  | _ => w
  end.

(* ------------------------------------------------------------------ *)
(** ** Effects: the output log and the failures of the terminal *)

(** What the stdout-backed terminal and the final [print!] write to
    standard output. *)
Inductive out_item :=
| OEnterAlt | OEnableMouse | OLeaveAlt | ODisableMouse | OShowCursor
| OFrame (query : rstring) (items : list rstring) (highlighted : option nat)
| OText (s : rstring).

(** Raw mode is a terminal attribute (not bytes on stdout); [Stderr] is
    [eprintln!] and the panic message. *)
Inductive log_entry :=
| TtyRaw (on : bool)
| Stdout (o : out_item)
| Stderr (msg : string).

(** The environment of one loop iteration: drawing may fail, reading the
    next event may fail, or an event arrives. *)
Inductive tick :=
| DrawFails (e : string)
| ReadFails (e : string)
| Arrives (ev : Event).

(* ------------------------------------------------------------------ *)
(** ** The event loop of [run_app] *)

(** [struct State]; [list_state] keeps the [selected()] of the [ListState]
    (its scroll offset only matters to rendering).  The field [list] is
    named [list_] here. *)
Record State := mkState {
  input_widget : Input;
  list_ : list rstring;
  list_state : option nat;
  filtered : list rstring
}.

Definition init_state (l : list rstring) : State := mkState input_default l None [].

Definition set_selected (st : State) (sel : option nat) : State :=
  mkState (input_widget st) (list_ st) sel (filtered st).

Definition set_input (st : State) (w : Input) : State :=
  mkState w (list_ st) (list_state st) (filtered st).

(** Lines 76-90: the selection after [filtered] has been recomputed. *)
Definition reconcile (filtered : list rstring) (selected : option nat) : option nat :=
  match selected with
  | Some s => if List.length filtered <=? s
              then Some (Nat.max (List.length filtered) 1 - 1)
              else Some s
  | None => match filtered with [] => None | _ :: _ => Some 0 end
  end.

(** Lines 74-90: the head of an iteration. *)
Definition refresh (st : State) : option State :=
  match fuzzy_find (value (input_widget st)) (list_ st) with
  | None => None
  | Some f => Some (mkState (input_widget st) (list_ st) (reconcile f (list_state st)) f)
  end.

(** What one iteration does after reading an event. *)
Inductive Step :=
| Continue (st : State)
| Return (chosen : rstring)
| Fail (e : string)
| Panic (msg : string).

(** Lines 94-142: dispatch of the event read. *)
Definition dispatch (st : State) (ev : Event) : Step :=
  match ev with
  | Key KEnter =>
      match list_state st with
      | Some selected =>
          match nth_error (filtered st) selected with
          | Some s => Return s
          | None => Panic "index out of bounds"
          end
      | None => Continue st
      end
  | Key KEsc => Fail "User cancelled"
  | Key KUp =>
      match list_state st with
      | Some selected =>
          if 0 <? selected then Continue (set_selected st (Some (selected - 1)))
          else Continue st
      | None =>
          match filtered st with
          | [] => Continue st
          | _ :: _ => Continue (set_selected st (Some (List.length (filtered st) - 1)))
          end
      end
  | Key KDown =>
      match list_state st with
      | Some selected =>
          if selected + 1 <? List.length (filtered st)
          then Continue (set_selected st (Some (selected + 1)))
          else Continue st
      | None =>
          match filtered st with
          | [] => Continue st
          | _ :: _ => Continue (set_selected st (Some 0))
          end
      end
  | Key k => Continue (set_input st (handle_event k (input_widget st)))
  | Mouse => Panic "not yet implemented"
  | _ => Continue st
  end.

Definition frame_of (st : State) : log_entry :=
  Stdout (OFrame (value (input_widget st)) (filtered st) (list_state st)).

(** One pass through the body of [loop]. *)
Definition loop_iter (st : State) (t : tick) : list log_entry * Step :=
  match refresh st with
  | None => ([], Panic "called `Option::unwrap()` on a `None` value")
  | Some st1 =>
      match t with
      | DrawFails e => ([], Fail e)
      | ReadFails e => ([frame_of st1], Fail e)
      | Arrives ev => ([frame_of st1], dispatch st1 ev)
      end
  end.

(** The loop over a finite stream of ticks; [Continue] at the end means the
    loop is still waiting for input in that state. *)
Fixpoint run_from (ts : list tick) (st : State) : list log_entry * Step :=
  match ts with
  | [] => ([], Continue st)
  | t :: ts' =>
      let (l, r) := loop_iter st t in
      match r with
      | Continue st' => let (l', r') := run_from ts' st' in (l ++ l', r')
      | _ => (l, r)
      end
  end.

(* ------------------------------------------------------------------ *)
(** ** [inner_main] and [main] *)

(** How a computation of [inner_main] ends: [Ok], [Err] through [?], a
    panic, or still inside the event loop when the ticks ran out. *)
Inductive outcome (A : Type) :=
| OOk (a : A)
| OErr (e : string)
| OPanic (msg : string)
| OPending.
Arguments OOk {A}. Arguments OErr {A}. Arguments OPanic {A}. Arguments OPending {A}.

(** A writer-and-error monad: the log written so far and the outcome. *)
Definition M (A : Type) : Type := (list log_entry * outcome A)%type.

Definition ret {A} (a : A) : M A := ([], OOk a).

Definition bind {A B} (m : M A) (f : A -> M B) : M B :=
  let (l, o) := m in
  match o with
  | OOk a => let (l', o') := f a in (l ++ l', o')
  | OErr e => (l, OErr e)
  | OPanic msg => (l, OPanic msg)
  | OPending => (l, OPending)
  end.

Notation "'let*' x ':=' m 'in' k" := (bind m (fun x => k))
  (at level 200, x name, m at level 100, k at level 200).

(** [run_app] as a computation of the monad. *)
Definition run_app (ts : list tick) (st : State) : M rstring :=
  let (l, r) := run_from ts st in
  match r with
  | Continue _ => (l, OPending)
  | Return s => (l, OOk s)
  | Fail e => (l, OErr e)
  | Panic msg => (l, OPanic msg)
  end.

(** The fallible terminal calls of [inner_main], each followed by [?]. *)
Inductive term_call :=
| CEnableRaw | CEnterAlt | CEnableMouse | CTerminalNew
| CDisableRaw | CLeaveAlt | CDisableMouse | CShowCursor.

(** The environment of a session: what reading stdin gives, which terminal
    calls fail and with which message, and the loop's ticks. *)
Record Env := mkEnv {
  stdin : list rstring + string;
  term_fails : term_call -> option string;
  ticks : list tick
}.

Definition call (env : Env) (c : term_call) (effect : list log_entry) : M unit :=
  match term_fails env c with
  | Some e => ([], OErr e)
  | None => (effect, OOk tt)
  end.

Definition read_lines (env : Env) : M (list rstring) :=
  match stdin env with
  | inl l => ret l
  | inr e => ([], OErr e)
  end.

(** Lines 30-67. *)
Definition inner_main (env : Env) : M unit :=
  let* list := read_lines env in
  let* _ := call env CEnableRaw [TtyRaw true] in
  let* _ := call env CEnterAlt [Stdout OEnterAlt] in
  let* _ := call env CEnableMouse [Stdout OEnableMouse] in
  let* _ := call env CTerminalNew [] in
  let* chosen := run_app (ticks env) (init_state list) in
  let* _ := call env CDisableRaw [TtyRaw false] in
  let* _ := call env CLeaveAlt [Stdout OLeaveAlt] in
  let* _ := call env CDisableMouse [Stdout ODisableMouse] in
  let* _ := call env CShowCursor [Stdout OShowCursor] in
  ([Stdout (OText chosen)], OOk tt).

Inductive exit_status := ExitSuccess | ExitFailure | ExitPanic | Running.

(** Lines 20-28; a panic prints its message and aborts the process. *)
Definition main (env : Env) : list log_entry * exit_status :=
  let (l, o) := inner_main env in
  match o with
  | OOk _ => (l, ExitSuccess)
  | OErr e => (l ++ [Stderr e], ExitFailure)
  | OPanic msg => (l ++ [Stderr msg], ExitPanic)
  | OPending => (l, Running)
  end.

Definition no_failures : term_call -> option string := fun _ => None.

Example main_confirm_first :
  main (mkEnv (inl [rs "apple"; rs "banana"]) no_failures [Arrives (Key KEnter)])
  = ([TtyRaw true; Stdout OEnterAlt; Stdout OEnableMouse;
      Stdout (OFrame [] [rs "apple"; rs "banana"] (Some 0));
      TtyRaw false; Stdout OLeaveAlt; Stdout ODisableMouse; Stdout OShowCursor;
      Stdout (OText (rs "apple"))], ExitSuccess).
Proof. reflexivity. Qed.

(* ================================================================== *)
(** * Properties *)

(* ------------------------------------------------------------------ *)
(** ** The stable insertion sort *)

Section SortFacts.
Context {A : Type} (key : A -> nat).

Lemma insert_by_key_perm (x : A) (l : list A) :
  Permutation (insert_by_key key x l) (x :: l).
Proof.
  induction l as [|y l IH]; simpl; [reflexivity|].
  destruct (key x <=? key y); [reflexivity|].
  rewrite IH. apply perm_swap.
Qed.

Lemma sort_by_key_perm (l : list A) : Permutation (sort_by_key key l) l.
Proof.
  induction l as [|x l IH]; simpl; [reflexivity|].
  rewrite insert_by_key_perm. now constructor.
Qed.

Let R := fun a b => key a <= key b.

Lemma insert_by_key_hd (y x : A) (l : list A) :
  HdRel R y l -> key y <= key x -> HdRel R y (insert_by_key key x l).
Proof.
  intros Hhd Hyx. destruct l as [|z l]; simpl.
  - now constructor.
  - destruct (key x <=? key z); constructor; [exact Hyx|].
    now inversion Hhd.
Qed.

Lemma insert_by_key_sorted (x : A) (l : list A) :
  Sorted R l -> Sorted R (insert_by_key key x l).
Proof.
  induction l as [|y l IH]; intros Hs; simpl.
  - now repeat constructor.
  - inversion Hs as [|? ? Hl Hhd]; subst.
    destruct (key x <=? key y) eqn:E.
    + apply Nat.leb_le in E. now repeat constructor.
    + apply Nat.leb_gt in E. constructor; [now apply IH|].
      apply insert_by_key_hd; [exact Hhd|unfold R; lia].
Qed.

Lemma sort_by_key_sorted (l : list A) : Sorted R (sort_by_key key l).
Proof.
  induction l as [|x l IH]; simpl; [constructor|].
  now apply insert_by_key_sorted.
Qed.

(** The elements of one key keep their order. *)
Lemma insert_by_key_filter_key (k : nat) (x : A) (l : list A) :
  filter (fun a => key a =? k) (insert_by_key key x l)
  = filter (fun a => key a =? k) (x :: l).
Proof.
  induction l as [|y l IH]; simpl; [reflexivity|].
  destruct (key x <=? key y) eqn:E; [reflexivity|].
  apply Nat.leb_gt in E. simpl. rewrite IH. simpl.
  destruct (key y =? k) eqn:Ey, (key x =? k) eqn:Ex; try reflexivity.
  apply Nat.eqb_eq in Ey, Ex. lia.
Qed.

Lemma sort_by_key_filter_key (k : nat) (l : list A) :
  filter (fun a => key a =? k) (sort_by_key key l) = filter (fun a => key a =? k) l.
Proof.
  induction l as [|x l IH]; simpl; [reflexivity|].
  rewrite insert_by_key_filter_key. simpl. now rewrite IH.
Qed.
End SortFacts.

Lemma sort_by_key_map {A B} (key : B -> nat) (f : A -> B) (l : list A) :
  sort_by_key key (map f l) = map f (sort_by_key (fun a => key (f a)) l).
Proof.
  induction l as [|x l IH]; simpl; [reflexivity|].
  rewrite IH. generalize (sort_by_key (fun a => key (f a)) l) as s.
  induction s as [|y s IHs]; simpl; [reflexivity|].
  destruct (key (f x) <=? key (f y)); simpl; [reflexivity|].
  now rewrite IHs.
Qed.

(* ------------------------------------------------------------------ *)
(** ** [fuzzy_find] as a sort of a filter *)

Lemma filter_map_comm {A B} (p : B -> bool) (f : A -> B) (l : list A) :
  filter p (map f l) = map f (filter (fun a => p (f a)) l).
Proof.
  induction l as [|x l IH]; simpl; [reflexivity|].
  destruct (p (f x)); simpl; now rewrite IH.
Qed.

Lemma enumerate_from_snd {A} (k : nat) (l : list A) :
  map snd (enumerate_from k l) = l.
Proof.
  revert k. induction l as [|x l IH]; intros k; simpl; [reflexivity|].
  now rewrite IH.
Qed.

Lemma enumerate_from_nth {A} (k : nat) (l : list A) (i : nat) (x : A) :
  In (i, x) (enumerate_from k l) -> k <= i /\ nth_error l (i - k) = Some x.
Proof.
  revert k. induction l as [|y l IH]; intros k H; simpl in H; [contradiction|].
  destruct H as [H|H].
  - inversion H; subst. rewrite Nat.sub_diag. split; [lia|reflexivity].
  - destruct (IH (S k) H) as [Hle Hn].
    replace (i - k) with (S (i - S k)) by lia. split; [lia|exact Hn].
Qed.

Lemma unwrap_all_resolved {A} (L : list A) (S : list (nat * A)) :
  (forall p, In p S -> nth_error L (fst p) = Some (snd p)) ->
  unwrap_all (map (fun p => nth_error L (fst p)) S) = Some (map snd S).
Proof.
  induction S as [|p S IH]; intros H; simpl; [reflexivity|].
  rewrite (H p (or_introl eq_refl)). simpl.
  rewrite IH; [reflexivity|]. intros q Hq. apply H. now right.
Qed.

(** For a non-empty query the result is the stable sort, by score, of the
    candidates of positive score. *)
Lemma fuzzy_find_nonempty (q : rstring) (L : list rstring) :
  q <> [] ->
  fuzzy_find q L
  = Some (sort_by_key (compute_fuzzy_find_score q)
            (filter (fun s => 0 <? compute_fuzzy_find_score q s) L)).
Proof.
  intros Hq. unfold fuzzy_find.
  destruct q as [|c q']; [congruence|]. set (q := c :: q').
  set (sc := compute_fuzzy_find_score q).
  set (g := fun p : nat * rstring => (fst p, sc (snd p))).
  change (map (fun p => (fst p, compute_fuzzy_find_score q (snd p))) (enumerate L))
    with (map g (enumerate L)).
  rewrite filter_map_comm, sort_by_key_map, map_map.
  set (T := filter (fun a => 0 <? snd (g a)) (enumerate L)).
  set (S := sort_by_key (fun a => snd (g a)) T).
  change (map (fun x => nth_error L (fst (g x))) S)
    with (map (fun p : nat * rstring => nth_error L (fst p)) S).
  rewrite unwrap_all_resolved.
  - f_equal. unfold S.
    transitivity (sort_by_key sc (map snd T)); [now rewrite sort_by_key_map|].
    f_equal. unfold T.
    transitivity (filter (fun s => 0 <? sc s) (map snd (enumerate L)));
      [symmetry; exact (filter_map_comm (fun s => 0 <? sc s) snd (enumerate L))|].
    unfold enumerate. now rewrite enumerate_from_snd.
  - intros [i x] Hin. simpl.
    apply (Permutation_in _ (sort_by_key_perm _ T)) in Hin.
    unfold T in Hin. apply filter_In in Hin as [Hin _].
    apply enumerate_from_nth in Hin as [_ Hn]. now rewrite Nat.sub_0_r in Hn.
Qed.

Lemma filter_filter_implied {A} (p p' : A -> bool) (l : list A) :
  (forall x, p x = true -> p' x = true) ->
  filter p (filter p' l) = filter p l.
Proof.
  intros H. induction l as [|x l IH]; simpl; [reflexivity|].
  destruct (p' x) eqn:E'; simpl; destruct (p x) eqn:E; rewrite ?IH; try reflexivity.
  rewrite (H x E) in E'. discriminate.
Qed.

(** C4.  For a non-empty query [q], [fuzzy_find q L] returns a list that
    holds exactly the candidates of [L] of positive score, unaltered and
    nothing added (a permutation of that subsequence), in ascending order of
    score, and for every score the candidates of that score come in their
    order in [L] (stable sort). *)
Theorem fuzzy_find_sorted_stable_filter (q : rstring) (L : list rstring) (Hq : q <> []) :
  exists r, fuzzy_find q L = Some r
  /\ Permutation r (filter (fun s => 0 <? compute_fuzzy_find_score q s) L)
  /\ Sorted (fun a b => compute_fuzzy_find_score q a <= compute_fuzzy_find_score q b) r
  /\ (forall k, 0 < k ->
        filter (fun s => compute_fuzzy_find_score q s =? k) r
        = filter (fun s => compute_fuzzy_find_score q s =? k) L).
Proof.
  rewrite (fuzzy_find_nonempty q L Hq). eexists. split; [reflexivity|].
  split; [apply sort_by_key_perm|]. split; [apply sort_by_key_sorted|].
  intros k Hk. rewrite sort_by_key_filter_key.
  apply filter_filter_implied. intros x Hx.
  apply Nat.eqb_eq in Hx. apply Nat.ltb_lt. lia.
Qed.

Lemma fuzzy_find_sorted_stable_filter_witness :
  rs "ap" <> [] /\
  exists r, fuzzy_find (rs "ap") [rs "apple"; rs "banana"; rs "grape"] = Some r
  /\ Permutation r (filter (fun s => 0 <? compute_fuzzy_find_score (rs "ap") s)
                      [rs "apple"; rs "banana"; rs "grape"])
  /\ Sorted (fun a b => compute_fuzzy_find_score (rs "ap") a
                        <= compute_fuzzy_find_score (rs "ap") b) r
  /\ (forall k, 0 < k ->
        filter (fun s => compute_fuzzy_find_score (rs "ap") s =? k) r
        = filter (fun s => compute_fuzzy_find_score (rs "ap") s =? k)
            [rs "apple"; rs "banana"; rs "grape"]).
Proof.
  split; [discriminate|].
  apply (fuzzy_find_sorted_stable_filter (rs "ap")). discriminate.
Defined.

(** C6.  With the empty query [fuzzy_find] returns the candidate list
    itself, same elements in the same order. *)
Theorem fuzzy_find_empty_query (L : list rstring) : fuzzy_find [] L = Some L.
Proof. reflexivity. Qed.

(* ------------------------------------------------------------------ *)
(** ** The score *)

Lemma count_filter_eqb (c : rchar) (s : rstring) :
  List.length (filter (fun cc => Nat.eqb c cc) s) = count_occ Nat.eq_dec s c.
Proof.
  induction s as [|d s IH]; simpl; [reflexivity|].
  destruct (Nat.eq_dec d c) as [->|Hne].
  - rewrite Nat.eqb_refl. simpl. now rewrite IH.
  - destruct (c =? d) eqn:E; [apply Nat.eqb_eq in E; congruence|exact IH].
Qed.

Lemma list_sum_perm (l l' : list nat) : Permutation l l' -> list_sum l = list_sum l'.
Proof. induction 1; simpl; lia. Qed.

Lemma score_count_occ (q s : rstring) :
  compute_fuzzy_find_score q s = list_sum (map (fun c => count_occ Nat.eq_dec s c) q).
Proof.
  unfold compute_fuzzy_find_score. f_equal. apply map_ext. intros c. exact (count_filter_eqb c s).
Qed.

(** C5.  The score of [s] for the query [q] is the sum, over the chars [c]
    of [q], of the number of occurrences of [c] in [s]: chars are compared
    exactly (["a"] scores nothing against ["A"]), a permutation [q'] of the
    query gives the same score, and each char of the query adds its count
    on its own, so a repeated char counts again.  On the example, scores are
    3, 3 and 2 for apple, banana and grape, and the result is
    grape, apple, banana. *)
Theorem score_sum_of_counts (q q' s : rstring) (Hperm : Permutation q q') :
  compute_fuzzy_find_score q s = list_sum (map (fun c => count_occ Nat.eq_dec s c) q)
  /\ compute_fuzzy_find_score q s = compute_fuzzy_find_score q' s
  /\ (forall c, compute_fuzzy_find_score (c :: q) s
                = count_occ Nat.eq_dec s c + compute_fuzzy_find_score q s)
  /\ compute_fuzzy_find_score (rs "a") (rs "A") = 0
  /\ map (compute_fuzzy_find_score (rs "ap")) [rs "apple"; rs "banana"; rs "grape"] = [3; 3; 2]
  /\ fuzzy_find (rs "ap") [rs "apple"; rs "banana"; rs "grape"]
     = Some [rs "grape"; rs "apple"; rs "banana"].
Proof.
  split; [apply score_count_occ|].
  split.
  { rewrite !score_count_occ. apply list_sum_perm. now apply Permutation_map. }
  split.
  { intros c. rewrite !score_count_occ. reflexivity. }
  repeat split; reflexivity.
Qed.

Lemma score_sum_of_counts_witness :
  Permutation (rs "ap") (rs "pa") /\
  compute_fuzzy_find_score (rs "ap") (rs "apple")
  = list_sum (map (fun c => count_occ Nat.eq_dec (rs "apple") c) (rs "ap"))
  /\ compute_fuzzy_find_score (rs "ap") (rs "apple")
     = compute_fuzzy_find_score (rs "pa") (rs "apple")
  /\ (forall c, compute_fuzzy_find_score (c :: rs "ap") (rs "apple")
                = count_occ Nat.eq_dec (rs "apple") c
                  + compute_fuzzy_find_score (rs "ap") (rs "apple"))
  /\ compute_fuzzy_find_score (rs "a") (rs "A") = 0
  /\ map (compute_fuzzy_find_score (rs "ap")) [rs "apple"; rs "banana"; rs "grape"] = [3; 3; 2]
  /\ fuzzy_find (rs "ap") [rs "apple"; rs "banana"; rs "grape"]
     = Some [rs "grape"; rs "apple"; rs "banana"].
Proof.
  split; [apply perm_swap|].
  apply score_sum_of_counts. apply perm_swap.
Defined.

(* ------------------------------------------------------------------ *)
(** ** The head of an iteration *)

Lemma fuzzy_find_total (q : rstring) (L : list rstring) : exists r, fuzzy_find q L = Some r.
Proof.
  destruct q as [|c q'].
  - now exists L.
  - eexists. apply fuzzy_find_nonempty. discriminate.
Qed.

Lemma refresh_total (st : State) : exists st1, refresh st = Some st1.
Proof.
  unfold refresh. destruct (fuzzy_find_total (value (input_widget st)) (list_ st)) as [f ->].
  eexists. reflexivity.
Qed.

Lemma refresh_fields (st st1 : State) :
  refresh st = Some st1 -> input_widget st1 = input_widget st /\ list_ st1 = list_ st.
Proof.
  unfold refresh. destruct (fuzzy_find _ _); [|discriminate].
  intros H. inversion H; subst. now split.
Qed.

Lemma reconcile_idem (f : list rstring) (sel : option nat) :
  reconcile f (reconcile f sel) = reconcile f sel.
Proof.
  destruct sel as [s|]; simpl.
  - destruct (List.length f <=? s) eqn:E; simpl.
    + destruct (List.length f <=? Nat.max (List.length f) 1 - 1) eqn:E2; [|reflexivity].
      apply Nat.leb_le in E2. destruct f; [reflexivity|simpl in E2; lia].
    + now rewrite E.
  - destruct f; reflexivity.
Qed.

Lemma refresh_idem (st st1 : State) : refresh st = Some st1 -> refresh st1 = Some st1.
Proof.
  unfold refresh. destruct (fuzzy_find _ _) as [f|] eqn:E; [|discriminate].
  intros H. inversion H; subst; clear H. simpl. rewrite E.
  now rewrite reconcile_idem.
Qed.

(** On a non-empty result list the reconciled selection is an index into
    it. *)
Lemma reconcile_in_bounds (f : list rstring) (sel : option nat) :
  f <> [] -> exists i, reconcile f sel = Some i /\ i < List.length f.
Proof.
  intros Hf. assert (Hn : 0 < List.length f) by (destruct f; [congruence|simpl; lia]).
  unfold reconcile. destruct sel as [s|].
  - destruct (List.length f <=? s) eqn:E.
    + eexists; split; [reflexivity|lia].
    + apply Nat.leb_gt in E. eexists; split; [reflexivity|exact E].
  - destruct f; [congruence|]. eexists; split; [reflexivity|simpl; lia].
Qed.

Lemma set_selected_same (st : State) : set_selected st (list_state st) = st.
Proof. now destruct st. Qed.

Lemma run_from_app (ts ts' : list tick) (st st' : State) (l : list log_entry) :
  run_from ts st = (l, Continue st') ->
  run_from (ts ++ ts') st = let (l', r) := run_from ts' st' in (l ++ l', r).
Proof.
  revert st l. induction ts as [|t ts IH]; intros st l H; simpl in *.
  - inversion H; subst. now destruct (run_from ts' st').
  - destruct (loop_iter st t) as [l1 r1]. destruct r1 as [st1| | |]; try discriminate.
    destruct (run_from ts st1) as [l2 r2] eqn:E. inversion H; subst.
    rewrite (IH st1 l2 E). destruct (run_from ts' st'). now rewrite app_assoc.
Qed.

(** An error out of the event loop goes straight to [main]. *)
Lemma main_loop_error (L : list rstring) (ts : list tick) (l : list log_entry) (e : string) :
  run_app ts (init_state L) = (l, OErr e) ->
  main (mkEnv (inl L) no_failures ts)
  = ([TtyRaw true; Stdout OEnterAlt; Stdout OEnableMouse] ++ l ++ [Stderr e], ExitFailure).
Proof.
  intros H. unfold main, inner_main. simpl. rewrite H. reflexivity.
Qed.

Definition key_char (c : ascii) : Event := Key (KChar (nat_of_ascii c)).

(* ------------------------------------------------------------------ *)
(** ** Claims on the event loop *)

(** C1.  The claim asks that after reconciliation an empty result list
    comes with no selection.  With the candidates ["a"], the first
    iteration selects index 0; typing "z" empties the results, and the next
    reconciliation sees [Some 0 >= len = 0] and selects
    [Some (max 0 1 - 1) = Some 0]: a selection into an empty list. *)
Theorem reconcile_keeps_stale_selection_on_empty :
  match run_from [Arrives (key_char "z")] (init_state [rs "a"]) with
  | (_, Continue st) => option_map (fun st1 => (list_state st1, filtered st1)) (refresh st)
  | _ => None
  end = Some (Some 0, []).
Proof. reflexivity. Qed.

(** C2.  In the state reached above, Enter finds [Some 0] and indexes the
    empty result list: the session panics instead of returning an
    element. *)
Theorem confirm_on_stale_selection_panics :
  main (mkEnv (inl [rs "a"]) no_failures [Arrives (key_char "z"); Arrives (Key KEnter)])
  = ([TtyRaw true; Stdout OEnterAlt; Stdout OEnableMouse;
      Stdout (OFrame [] [rs "a"] (Some 0)); Stdout (OFrame (rs "z") [] (Some 0));
      Stderr "index out of bounds"], ExitPanic).
Proof. reflexivity. Qed.

(** C3.  On cancellation, and on an I/O error out of the event loop,
    [inner_main] returns through [?] before its teardown: the log has the
    set-up (raw mode on, alternate screen, mouse capture) and no raw mode
    off, no leaving the alternate screen, no disabling mouse capture, no
    showing the cursor. *)
Theorem error_exit_skips_teardown :
  main (mkEnv (inl [rs "a"]) no_failures [Arrives (Key KEsc)])
  = ([TtyRaw true; Stdout OEnterAlt; Stdout OEnableMouse;
      Stdout (OFrame [] [rs "a"] (Some 0)); Stderr "User cancelled"], ExitFailure)
  /\ main (mkEnv (inl [rs "a"]) no_failures [ReadFails "broken pipe"])
     = ([TtyRaw true; Stdout OEnterAlt; Stdout OEnableMouse;
         Stdout (OFrame [] [rs "a"] (Some 0)); Stderr "broken pipe"], ExitFailure).
Proof. split; reflexivity. Qed.

(** C7.  A mouse event read in any state aborts with the panic of
    [todo!()]. *)
Theorem mouse_event_panics (st : State) :
  snd (loop_iter st (Arrives Mouse)) = Panic "not yet implemented".
Proof.
  unfold loop_iter. destruct (refresh_total st) as [st1 ->]. reflexivity.
Qed.

(** The moves as the spec words them. *)
Definition move_up_spec (sel : option nat) (len : nat) : option nat :=
  match sel with
  | Some (S i) => Some i
  | Some 0 => Some 0
  | None => if 0 <? len then Some (len - 1) else None
  end.

Definition move_down_spec (sel : option nat) (len : nat) : option nat :=
  match sel with
  | Some i => if i + 1 <? len then Some (i + 1) else Some i
  | None => if 0 <? len then Some 0 else None
  end.

(** C8.  Up and Down change only the selection, as [move_up_spec] and
    [move_down_spec] say: no wraparound at either end, and from no
    selection to the last (Up) or first (Down) index of a non-empty
    result list. *)
Theorem up_down_moves (st : State) :
  dispatch st (Key KUp)
  = Continue (set_selected st (move_up_spec (list_state st) (List.length (filtered st))))
  /\ dispatch st (Key KDown)
     = Continue (set_selected st (move_down_spec (list_state st) (List.length (filtered st)))).
Proof.
  destruct st as [w l sel f]; unfold dispatch, move_up_spec, move_down_spec; simpl.
  split.
  - destruct sel as [[|i]|]; simpl.
    + reflexivity.
    + now rewrite Nat.sub_0_r.
    + destruct f; reflexivity.
  - destruct sel as [i|].
    + destruct (i + 1 <? List.length f); reflexivity.
    + destruct f; reflexivity.
Qed.

(** The loop itself only writes frames. *)
Lemma run_from_log_frames (ts : list tick) (st : State) (l : list log_entry) (r : Step) :
  run_from ts st = (l, r) ->
  forall e, In e l -> exists q f sel, e = Stdout (OFrame q f sel).
Proof.
  revert st l r. induction ts as [|t ts IH]; intros st l r H e Hin; simpl in H.
  - inversion H; subst. contradiction.
  - assert (Hit : forall e', In e' (fst (loop_iter st t)) ->
                             exists q f sel, e' = Stdout (OFrame q f sel)).
    { unfold loop_iter. destruct (refresh st) as [st1|]; [|contradiction].
      destruct t; simpl; intros e' He; [contradiction|(destruct He as [<-|[]]; unfold frame_of; eauto)..]. }
    destruct (loop_iter st t) as [l1 r1]. simpl in Hit.
    destruct r1 as [st1| | |];
      [destruct (run_from ts st1) as [l2 r2] eqn:E|..]; inversion H; subst;
      try (apply Hit; exact Hin).
    apply in_app_or in Hin as [Hin|Hin]; [now apply Hit|].
    exact (IH st1 l2 r E e Hin).
Qed.

(** C9 does not hold as stated: the terminal backend is built on
    [io::stdout()], so before Esc is read the session has written the
    alternate-screen switch, the mouse-capture switch and a drawn frame to
    standard output. *)
Lemma cancel_writes_terminal_output_to_stdout :
  In (Stdout OEnterAlt) (fst (main (mkEnv (inl [rs "a"]) no_failures [Arrives (Key KEsc)])))
  /\ In (Stdout (OFrame [] [rs "a"] (Some 0)))
        (fst (main (mkEnv (inl [rs "a"]) no_failures [Arrives (Key KEsc)]))).
Proof. split; simpl; auto 6. Qed.

(** C9 (amended).  From any state the loop reaches, Esc ends the session
    with the error "User cancelled": [main] writes that message to standard
    error as its last output and exits with failure; the chosen text is
    never printed, and what is on standard output is the terminal output
    written before: the alternate-screen switch, the mouse-capture switch
    and the frame drawn for the state in which Esc was read. *)
Theorem cancel_reports_failure (L : list rstring) (ts rest : list tick)
  (l : list log_entry) (st : State)
  (Hrun : run_from ts (init_state L) = (l, Continue st)) :
  exists st1 log, refresh st = Some st1
  /\ main (mkEnv (inl L) no_failures (ts ++ Arrives (Key KEsc) :: rest))
     = (log ++ [Stderr "User cancelled"], ExitFailure)
  /\ (forall s, ~ In (Stdout (OText s)) log)
  /\ In (Stdout OEnterAlt) log
  /\ In (Stdout OEnableMouse) log
  /\ In (frame_of st1) log.
Proof.
  destruct (refresh_total st) as [st1 Hst1]. exists st1.
  assert (Happ : run_app (ts ++ Arrives (Key KEsc) :: rest) (init_state L)
                 = (l ++ [frame_of st1], OErr "User cancelled")).
  { unfold run_app. rewrite (run_from_app _ _ _ _ _ Hrun). simpl.
    unfold loop_iter. rewrite Hst1. reflexivity. }
  rewrite (main_loop_error _ _ _ _ Happ).
  exists ([TtyRaw true; Stdout OEnterAlt; Stdout OEnableMouse] ++ l ++ [frame_of st1]).
  split; [exact Hst1|]. split; [now rewrite <- !app_assoc|]. split.
  - intros s Hin. simpl in Hin. unfold frame_of in Hin.
    destruct Hin as [H|[H|[H|Hin]]]; try discriminate.
    apply in_app_or in Hin as [Hin|[H|[]]]; [|discriminate].
    destruct (run_from_log_frames _ _ _ _ Hrun _ Hin) as (q & f & sel & H).
    discriminate.
  - split; [simpl; auto|]. split; [simpl; auto|].
    apply in_or_app; right; apply in_or_app; right; now left.
Qed.

Lemma cancel_reports_failure_witness :
  run_from [] (init_state [rs "a"]) = ([], Continue (init_state [rs "a"])) /\
  exists st1 log, refresh (init_state [rs "a"]) = Some st1
  /\ main (mkEnv (inl [rs "a"]) no_failures ([] ++ Arrives (Key KEsc) :: []))
     = (log ++ [Stderr "User cancelled"], ExitFailure)
  /\ (forall s, ~ In (Stdout (OText s)) log)
  /\ In (Stdout OEnterAlt) log
  /\ In (Stdout OEnableMouse) log
  /\ In (frame_of st1) log.
Proof.
  split; [reflexivity|].
  apply (cancel_reports_failure [rs "a"] [] [] [] (init_state [rs "a"])). reflexivity.
Defined.

Definition key_or_mouse (ev : Event) : bool :=
  match ev with
  | Key _ | Mouse => true
  | _ => false
  end.

(** C10.  An event that is neither a key nor a mouse event (focus, paste,
    resize) continues the loop with the state in which it arrived: query,
    candidates, selection and results as they were, and the next
    iteration's recomputation gives that same state again. *)
Theorem other_event_keeps_state (st : State) (ev : Event) (Hev : key_or_mouse ev = false) :
  exists st1, refresh st = Some st1
  /\ loop_iter st (Arrives ev) = ([frame_of st1], Continue st1)
  /\ input_widget st1 = input_widget st
  /\ list_ st1 = list_ st
  /\ refresh st1 = Some st1.
Proof.
  destruct (refresh_total st) as [st1 Hst1]. exists st1.
  split; [exact Hst1|]. split.
  - unfold loop_iter. rewrite Hst1. destruct ev; try discriminate; reflexivity.
  - destruct (refresh_fields _ _ Hst1) as [Hw Hl].
    split; [exact Hw|]. split; [exact Hl|]. exact (refresh_idem _ _ Hst1).
Qed.

Lemma other_event_keeps_state_witness :
  key_or_mouse (Resize 80 24) = false /\
  exists st1, refresh (init_state [rs "a"]) = Some st1
  /\ loop_iter (init_state [rs "a"]) (Arrives (Resize 80 24)) = ([frame_of st1], Continue st1)
  /\ input_widget st1 = input_widget (init_state [rs "a"])
  /\ list_ st1 = list_ (init_state [rs "a"])
  /\ refresh st1 = Some st1.
Proof.
  split; [reflexivity|].
  apply (other_event_keeps_state (init_state [rs "a"]) (Resize 80 24)). reflexivity.
Defined.

(* ================================================================== *)
(** * Further properties of the code *)

(* ------------------------------------------------------------------ *)
(** ** The score and [fuzzy_find] *)

Lemma sort_by_key_ext {A} (k1 k2 : A -> nat) (l : list A) :
  (forall x, k1 x = k2 x) -> sort_by_key k1 l = sort_by_key k2 l.
Proof.
  intros Hk. induction l as [|x l IH]; simpl; [reflexivity|].
  rewrite IH. generalize (sort_by_key k2 l) as s.
  induction s as [|y s IHs]; simpl; [reflexivity|].
  rewrite !Hk. destruct (k2 x <=? k2 y); [reflexivity|]. now rewrite IHs.
Qed.

Lemma sort_by_key_sorted_id {A} (key : A -> nat) (l : list A) :
  Sorted (fun a b => key a <= key b) l -> sort_by_key key l = l.
Proof.
  induction l as [|x l IH]; intros Hs; simpl; [reflexivity|].
  inversion Hs as [|? ? Hl Hhd]; subst. rewrite (IH Hl).
  destruct l as [|y l]; simpl; [reflexivity|].
  inversion Hhd; subst. now replace (key x <=? key y) with true by (symmetry; apply Nat.leb_le; lia).
Qed.

Lemma filter_all_true {A} (p : A -> bool) (l : list A) :
  (forall x, In x l -> p x = true) -> filter p l = l.
Proof.
  induction l as [|x l IH]; intros H; simpl; [reflexivity|].
  rewrite (H x (or_introl eq_refl)), IH; [reflexivity|]. intros y Hy. apply H. now right.
Qed.

Lemma list_sum_zero (l : list nat) : list_sum l = 0 <-> (forall n, In n l -> n = 0).
Proof.
  induction l as [|n l IH]; simpl; [split; [contradiction|reflexivity]|].
  split.
  - intros H0 m [<-|Hm]; [lia|]. apply IH; [lia|exact Hm].
  - intros H. rewrite (H n (or_introl eq_refl)), (proj2 IH); [reflexivity|].
    intros m Hm. apply H. now right.
Qed.

Lemma list_sum_cons (n : nat) (l : list nat) : list_sum (n :: l) = n + list_sum l.
Proof. reflexivity. Qed.

(** X1.  A candidate scores 0 exactly when it contains none of the chars of
    the query. *)
Theorem score_zero_iff_disjoint (q s : rstring) :
  compute_fuzzy_find_score q s = 0 <-> (forall c, In c q -> ~ In c s).
Proof.
  rewrite score_count_occ, list_sum_zero. split.
  - intros H c Hc. apply (count_occ_not_In Nat.eq_dec). apply H. now apply in_map.
  - intros H n Hn. apply in_map_iff in Hn as (c & <- & Hc).
    apply (count_occ_not_In Nat.eq_dec). now apply H.
Qed.

(** X2.  The score is additive in the candidate: the score of a
    concatenation is the sum of the scores of its parts. *)
Theorem score_app_subject (q s1 s2 : rstring) :
  compute_fuzzy_find_score q (s1 ++ s2)
  = compute_fuzzy_find_score q s1 + compute_fuzzy_find_score q s2.
Proof.
  rewrite !score_count_occ.
  rewrite (map_ext _ (fun c => count_occ Nat.eq_dec s1 c + count_occ Nat.eq_dec s2 c))
    by (intros c; apply count_occ_app).
  induction q as [|c q IH]; [reflexivity|].
  rewrite !map_cons, !list_sum_cons. unfold rstring, rchar in *. rewrite IH. lia.
Qed.

(** X3.  [fuzzy_find] never reaches the panic of [list.get(i).unwrap()]:
    it always returns a list, no longer than the candidate list. *)
Theorem fuzzy_find_no_panic (q : rstring) (L : list rstring) :
  exists r, fuzzy_find q L = Some r /\ List.length r <= List.length L.
Proof.
  destruct q as [|c q'].
  - exists L. split; [reflexivity|lia].
  - rewrite fuzzy_find_nonempty by discriminate. eexists. split; [reflexivity|].
    rewrite (Permutation_length (sort_by_key_perm _ _)). apply filter_length_le.
Qed.

(** X4.  For a non-empty query the result is empty exactly when no
    candidate shares a char with the query. *)
Theorem fuzzy_find_empty_iff (q : rstring) (L : list rstring) (Hq : q <> []) :
  fuzzy_find q L = Some [] <-> (forall s c, In s L -> In c q -> ~ In c s).
Proof.
  rewrite (fuzzy_find_nonempty q L Hq).
  set (F := filter (fun s => 0 <? compute_fuzzy_find_score q s) L).
  assert (HF : sort_by_key (compute_fuzzy_find_score q) F = [] <-> F = []).
  { split; intros H.
    - apply Permutation_nil. rewrite <- H. apply sort_by_key_perm.
    - now rewrite H. }
  split.
  - intros H s c Hs Hc. injection H as H. apply HF in H.
    assert (Hz : compute_fuzzy_find_score q s = 0).
    { destruct (compute_fuzzy_find_score q s) eqn:E; [reflexivity|].
      assert (In s F) by (apply filter_In; split; [exact Hs|rewrite E; reflexivity]).
      rewrite H in *. contradiction. }
    now apply (proj1 (score_zero_iff_disjoint q s) Hz c).
  - intros H. f_equal. apply HF.
    destruct F eqn:EF; [reflexivity|]. exfalso.
    assert (Hin : In r F) by (rewrite EF; now left).
    apply filter_In in Hin as [Hs Hp]. apply Nat.ltb_lt in Hp.
    assert (Hz : compute_fuzzy_find_score q r = 0)
      by (apply score_zero_iff_disjoint; intros c Hc; exact (H r c Hs Hc)).
    lia.
Qed.

Lemma fuzzy_find_empty_iff_witness :
  rs "xy" <> [] /\
  (fuzzy_find (rs "xy") [rs "apple"; rs "grape"] = Some []
   <-> (forall s c, In s [rs "apple"; rs "grape"] -> In c (rs "xy") -> ~ In c s)).
Proof.
  split; [discriminate|]. apply fuzzy_find_empty_iff. discriminate.
Defined.

(** X5.  Reordering the chars of the query does not change what
    [fuzzy_find] returns. *)
Theorem fuzzy_find_query_perm (q q' : rstring) (L : list rstring) (Hperm : Permutation q q') :
  fuzzy_find q L = fuzzy_find q' L.
Proof.
  destruct q as [|c q0].
  - apply Permutation_nil in Hperm. now subst.
  - destruct q' as [|c' q0']; [symmetry in Hperm; apply Permutation_nil in Hperm; discriminate|].
    rewrite !fuzzy_find_nonempty by discriminate.
    assert (Hs : forall s, compute_fuzzy_find_score (c :: q0) s
                           = compute_fuzzy_find_score (c' :: q0') s).
    { intros s. rewrite !score_count_occ. apply list_sum_perm. now apply Permutation_map. }
    rewrite (filter_ext _ (fun s => 0 <? compute_fuzzy_find_score (c' :: q0') s))
      by (intros s; now rewrite Hs).
    f_equal. now apply sort_by_key_ext.
Qed.

Lemma fuzzy_find_query_perm_witness :
  Permutation (rs "ap") (rs "pa") /\
  fuzzy_find (rs "ap") [rs "apple"; rs "banana"; rs "grape"]
  = fuzzy_find (rs "pa") [rs "apple"; rs "banana"; rs "grape"].
Proof.
  split; [apply perm_swap|]. apply fuzzy_find_query_perm. apply perm_swap.
Defined.

(** X6.  Filtering the results again with the same query gives them back
    unchanged. *)
Theorem fuzzy_find_idempotent (q : rstring) (L r : list rstring)
  (Hr : fuzzy_find q L = Some r) :
  fuzzy_find q r = Some r.
Proof.
  destruct q as [|c q0]; [reflexivity|].
  rewrite fuzzy_find_nonempty in Hr by discriminate. injection Hr as <-.
  rewrite fuzzy_find_nonempty by discriminate. f_equal.
  rewrite filter_all_true.
  - apply sort_by_key_sorted_id. apply sort_by_key_sorted.
  - intros x Hx. apply (Permutation_in _ (sort_by_key_perm _ _)) in Hx.
    now apply filter_In in Hx as [_ Hx].
Qed.

Lemma fuzzy_find_idempotent_witness :
  fuzzy_find (rs "ap") [rs "apple"; rs "banana"; rs "grape"]
  = Some [rs "grape"; rs "apple"; rs "banana"] /\
  fuzzy_find (rs "ap") [rs "grape"; rs "apple"; rs "banana"]
  = Some [rs "grape"; rs "apple"; rs "banana"].
Proof.
  split; [reflexivity|]. apply (fuzzy_find_idempotent _ [rs "apple"; rs "banana"; rs "grape"]).
  reflexivity.
Defined.

(* ------------------------------------------------------------------ *)
(** ** The event loop *)

Lemma fuzzy_find_incl (q : rstring) (L r : list rstring) :
  fuzzy_find q L = Some r -> incl r L.
Proof.
  destruct q as [|c q0]; intros H.
  - injection H as <-. apply incl_refl.
  - rewrite fuzzy_find_nonempty in H by discriminate. injection H as <-.
    intros x Hx. apply (Permutation_in _ (sort_by_key_perm _ _)) in Hx.
    now apply filter_In in Hx as [Hx _].
Qed.

(** The selection as the loop leaves it: absent only on an empty result
    list, and out of range only as index 0 of an empty list. *)
Definition sel_ok (st : State) : Prop :=
  match list_state st with
  | None => filtered st = []
  | Some i => i < List.length (filtered st) \/ (i = 0 /\ filtered st = [])
  end.

Lemma refresh_sel_ok (st st1 : State) : refresh st = Some st1 -> sel_ok st1.
Proof.
  unfold refresh, sel_ok. destruct (fuzzy_find _ _) as [f|]; [|discriminate].
  intros H. injection H as <-. simpl. unfold reconcile.
  destruct (list_state st) as [s|].
  - destruct (List.length f <=? s) eqn:E.
    + destruct f; [right; split; reflexivity|left; simpl; lia].
    + left. now apply Nat.leb_gt.
  - destruct f; [reflexivity|left; simpl; lia].
Qed.

Lemma dispatch_sel_ok (st st' : State) (ev : Event) :
  sel_ok st -> dispatch st ev = Continue st' -> sel_ok st'.
Proof.
  intros Hok H. destruct ev as [k| | | | |]; simpl in H; try discriminate;
    try (injection H as <-; exact Hok).
  destruct k; simpl in H; try discriminate; try (injection H as <-; exact Hok);
    unfold sel_ok in *; revert H; destruct (list_state st) as [s|] eqn:Es; intros H.
  - destruct (nth_error _ _); discriminate.
  - injection H as <-. rewrite Es. exact Hok.
  - revert H; destruct (0 <? s) eqn:E; intros H; injection H as <-; simpl;
      [|rewrite Es; exact Hok].
    apply Nat.ltb_lt in E. destruct Hok as [Hl|[Hs _]]; [left; lia|lia].
  - revert H Hok; destruct (filtered st) eqn:Ef; intros H Hok; injection H as <-;
      [rewrite Es, Ef; reflexivity|].
    simpl. rewrite Ef. left. simpl. lia.
  - revert H; destruct (s + 1 <? List.length (filtered st)) eqn:E; intros H;
      injection H as <-; simpl; [|rewrite Es; exact Hok].
    apply Nat.ltb_lt in E. left. exact E.
  - revert H Hok; destruct (filtered st) eqn:Ef; intros H Hok; injection H as <-;
      [rewrite Es, Ef; reflexivity|].
    simpl. rewrite Ef. left. simpl. lia.
Qed.

Lemma loop_iter_continue (st st' : State) (t : tick) (l : list log_entry) :
  loop_iter st t = (l, Continue st') ->
  exists st1 ev, refresh st = Some st1 /\ t = Arrives ev /\ dispatch st1 ev = Continue st'.
Proof.
  unfold loop_iter. destruct (refresh st) as [st1|]; [|discriminate].
  destruct t as [e|e|ev]; intros H; try discriminate.
  injection H as _ H. eauto.
Qed.

Lemma dispatch_list (st st' : State) (ev : Event) :
  dispatch st ev = Continue st' -> list_ st' = list_ st.
Proof.
  intros H. destruct ev as [k| | | | |]; simpl in H; try discriminate;
    try (injection H as <-; reflexivity).
  destruct k; simpl in H; try discriminate; try (injection H as <-; reflexivity);
    revert H; destruct (list_state st) as [s|]; intros H.
  - destruct (nth_error _ _); discriminate.
  - injection H as <-. reflexivity.
  - revert H; destruct (0 <? s); intros H; injection H as <-; reflexivity.
  - revert H; destruct (filtered st); intros H; injection H as <-; reflexivity.
  - revert H; destruct (s + 1 <? _); intros H; injection H as <-; reflexivity.
  - revert H; destruct (filtered st); intros H; injection H as <-; reflexivity.
Qed.

Lemma loop_iter_list (st st' : State) (t : tick) (l : list log_entry) :
  loop_iter st t = (l, Continue st') -> list_ st' = list_ st.
Proof.
  intros H. destruct (loop_iter_continue _ _ _ _ H) as (st1 & ev & Hr & _ & Hd).
  rewrite (dispatch_list _ _ _ Hd). exact (proj2 (refresh_fields _ _ Hr)).
Qed.

Lemma refresh_filtered (st st1 : State) :
  refresh st = Some st1 -> fuzzy_find (value (input_widget st)) (list_ st) = Some (filtered st1).
Proof.
  unfold refresh. destruct (fuzzy_find _ _); [|discriminate].
  intros H. now injection H as <-.
Qed.

Lemma refresh_filtered_incl (st st1 : State) :
  refresh st = Some st1 -> incl (filtered st1) (list_ st).
Proof. intros H. exact (fuzzy_find_incl _ _ _ (refresh_filtered _ _ H)). Qed.

(** X7.  When the recomputed result list is not empty, Enter ends the
    loop returning the highlighted entry [filtered[i]], an index in range,
    and that entry is one of the candidate lines. *)
Theorem confirm_returns_candidate (st st1 : State)
  (Hr : refresh st = Some st1) (Hne : filtered st1 <> []) :
  exists i s, list_state st1 = Some i
  /\ nth_error (filtered st1) i = Some s
  /\ In s (list_ st)
  /\ loop_iter st (Arrives (Key KEnter)) = ([frame_of st1], Return s).
Proof.
  pose proof (refresh_sel_ok _ _ Hr) as Hok. unfold sel_ok in Hok.
  destruct (list_state st1) as [i|] eqn:Ei; [|contradiction].
  destruct Hok as [Hi|[_ He]]; [|contradiction].
  apply nth_error_Some in Hi. destruct (nth_error (filtered st1) i) as [s|] eqn:En;
    [|contradiction].
  exists i, s. split; [reflexivity|]. split; [exact En|]. split.
  - apply (refresh_filtered_incl _ _ Hr). exact (nth_error_In _ _ En).
  - unfold loop_iter. rewrite Hr. simpl. now rewrite Ei, En.
Qed.

Lemma confirm_returns_candidate_witness :
  refresh (init_state [rs "apple"]) = Some (mkState input_default [rs "apple"] (Some 0) [rs "apple"])
  /\ filtered (mkState input_default [rs "apple"] (Some 0) [rs "apple"]) <> []
  /\ exists i s, list_state (mkState input_default [rs "apple"] (Some 0) [rs "apple"]) = Some i
  /\ nth_error (filtered (mkState input_default [rs "apple"] (Some 0) [rs "apple"])) i = Some s
  /\ In s (list_ (init_state [rs "apple"]))
  /\ loop_iter (init_state [rs "apple"]) (Arrives (Key KEnter))
     = ([frame_of (mkState input_default [rs "apple"] (Some 0) [rs "apple"])], Return s).
Proof.
  split; [reflexivity|]. split; [discriminate|].
  apply confirm_returns_candidate; [reflexivity|discriminate].
Defined.

Lemma run_from_sel_ok (ts : list tick) (st st' : State) (l : list log_entry) :
  sel_ok st -> run_from ts st = (l, Continue st') -> sel_ok st'.
Proof.
  revert st l. induction ts as [|t ts IH]; intros st l Hok H; simpl in H.
  - now injection H as _ <-.
  - destruct (loop_iter st t) as [l1 r1] eqn:Eit.
    destruct r1 as [st1| | |]; try discriminate.
    destruct (run_from ts st1) as [l2 r2] eqn:E. injection H as _ ->.
    apply (IH st1 l2); [|exact E].
    destruct (loop_iter_continue _ _ _ _ Eit) as (st0 & ev & Hr & _ & Hd).
    exact (dispatch_sel_ok _ _ _ (refresh_sel_ok _ _ Hr) Hd).
Qed.

(** X8.  In every state the loop reaches, a missing selection means an
    empty result list, and a selection out of range can only be index 0 of
    an empty result list. *)
Theorem reachable_selection_ok (L : list rstring) (ts : list tick) (l : list log_entry)
  (st : State) (Hrun : run_from ts (init_state L) = (l, Continue st)) :
  match list_state st with
  | None => filtered st = []
  | Some i => i < List.length (filtered st) \/ (i = 0 /\ filtered st = [])
  end.
Proof. exact (run_from_sel_ok ts (init_state L) st l eq_refl Hrun). Qed.

Lemma reachable_selection_ok_witness :
  run_from [Arrives (key_char "z")] (init_state [rs "a"])
  = ([Stdout (OFrame [] [rs "a"] (Some 0))],
     Continue (mkState (mkInput (rs "z") 1) [rs "a"] (Some 0) [rs "a"]))
  /\ match list_state (mkState (mkInput (rs "z") 1) [rs "a"] (Some 0) [rs "a"]) with
     | None => filtered (mkState (mkInput (rs "z") 1) [rs "a"] (Some 0) [rs "a"]) = []
     | Some i => i < List.length (filtered (mkState (mkInput (rs "z") 1) [rs "a"] (Some 0) [rs "a"]))
                 \/ (i = 0 /\ filtered (mkState (mkInput (rs "z") 1) [rs "a"] (Some 0) [rs "a"]) = [])
     end.
Proof.
  split; [reflexivity|].
  apply (reachable_selection_ok [rs "a"] [Arrives (key_char "z")]
           [Stdout (OFrame [] [rs "a"] (Some 0))]).
  reflexivity.
Defined.

(** X9.  The loop never changes the candidate list read from standard
    input. *)
Theorem run_keeps_candidates (ts : list tick) (st st' : State) (l : list log_entry)
  (Hrun : run_from ts st = (l, Continue st')) :
  list_ st' = list_ st.
Proof.
  revert st l Hrun. induction ts as [|t ts IH]; intros st l H; simpl in H.
  - now injection H as _ <-.
  - destruct (loop_iter st t) as [l1 r1] eqn:Eit.
    destruct r1 as [st1| | |]; try discriminate.
    destruct (run_from ts st1) as [l2 r2] eqn:E. injection H as _ ->.
    rewrite (IH st1 l2 E). exact (loop_iter_list _ _ _ _ Eit).
Qed.

Lemma run_keeps_candidates_witness :
  run_from [Arrives (key_char "z"); Arrives (Key KDown)] (init_state [rs "a"])
  = ([Stdout (OFrame [] [rs "a"] (Some 0)); Stdout (OFrame (rs "z") [] (Some 0))],
     Continue (mkState (mkInput (rs "z") 1) [rs "a"] (Some 0) []))
  /\ list_ (mkState (mkInput (rs "z") 1) [rs "a"] (Some 0) []) = list_ (init_state [rs "a"]).
Proof.
  split; [reflexivity|]. apply (run_keeps_candidates [Arrives (key_char "z"); Arrives (Key KDown)]
    _ _ [Stdout (OFrame [] [rs "a"] (Some 0)); Stdout (OFrame (rs "z") [] (Some 0))]).
  reflexivity.
Defined.

Lemma dispatch_return_in (st : State) (ev : Event) (s : rstring) :
  dispatch st ev = Return s -> In s (filtered st).
Proof.
  intros H. destruct ev as [k| | | | |]; simpl in H; try discriminate.
  destruct k; simpl in H; try discriminate;
    revert H; destruct (list_state st) as [i|]; intros H; try discriminate.
  - destruct (nth_error (filtered st) i) eqn:En; [|discriminate].
    injection H as <-. exact (nth_error_In _ _ En).
  - destruct (0 <? i); discriminate.
  - destruct (filtered st); discriminate.
  - destruct (i + 1 <? _); discriminate.
  - destruct (filtered st); discriminate.
Qed.

Lemma run_from_return_in (ts : list tick) (st : State) (l : list log_entry) (s : rstring) :
  run_from ts st = (l, Return s) -> In s (list_ st).
Proof.
  revert st l. induction ts as [|t ts IH]; intros st l H; simpl in H; [discriminate|].
  destruct (loop_iter st t) as [l1 r1] eqn:Eit.
  destruct r1 as [st1|s1| |].
  - destruct (run_from ts st1) as [l2 r2] eqn:E. injection H as _ ->.
    rewrite <- (loop_iter_list _ _ _ _ Eit). exact (IH st1 l2 E).
  - injection H as _ ->. unfold loop_iter in Eit.
    destruct (refresh st) as [st0|] eqn:Hr; [|discriminate].
    destruct t as [e|e|ev]; try discriminate. injection Eit as _ Hd.
    exact (refresh_filtered_incl _ _ Hr _ (dispatch_return_in _ _ _ Hd)).
  - discriminate.
  - discriminate.
Qed.

(** X10.  A successful session reads its candidates from standard input,
    runs the whole teardown (raw mode off, primary screen, mouse capture
    off, cursor shown) and then, as its last output, prints one of the
    candidate lines. *)
Theorem main_success_prints_candidate (env : Env) (log : list log_entry)
  (Hmain : main env = (log, ExitSuccess)) :
  exists lines s pre, stdin env = inl lines /\ In s lines
  /\ log = pre ++ [TtyRaw false; Stdout OLeaveAlt; Stdout ODisableMouse;
                   Stdout OShowCursor; Stdout (OText s)].
Proof.
  destruct env as [sin tf ts]. unfold main, inner_main, read_lines, call, ret in Hmain.
  simpl in Hmain. destruct sin as [lines|e]; simpl in Hmain; [|discriminate].
  destruct (tf CEnableRaw); simpl in Hmain; [discriminate|].
  destruct (tf CEnterAlt); simpl in Hmain; [discriminate|].
  destruct (tf CEnableMouse); simpl in Hmain; [discriminate|].
  destruct (tf CTerminalNew); simpl in Hmain; [discriminate|].
  unfold run_app in Hmain. destruct (run_from ts (init_state lines)) as [l r] eqn:Er.
  destruct r as [st|s|e|m]; simpl in Hmain; try discriminate.
  destruct (tf CDisableRaw); simpl in Hmain; [discriminate|].
  destruct (tf CLeaveAlt); simpl in Hmain; [discriminate|].
  destruct (tf CDisableMouse); simpl in Hmain; [discriminate|].
  destruct (tf CShowCursor); simpl in Hmain; [discriminate|].
  injection Hmain as <-.
  exists lines, s, ([TtyRaw true; Stdout OEnterAlt; Stdout OEnableMouse] ++ l).
  split; [reflexivity|]. split; [exact (run_from_return_in _ _ _ _ Er)|].
  rewrite <- !app_assoc. reflexivity.
Qed.

Lemma main_success_prints_candidate_witness :
  main (mkEnv (inl [rs "apple"; rs "banana"]) no_failures [Arrives (Key KEnter)])
  = ([TtyRaw true; Stdout OEnterAlt; Stdout OEnableMouse;
      Stdout (OFrame [] [rs "apple"; rs "banana"] (Some 0));
      TtyRaw false; Stdout OLeaveAlt; Stdout ODisableMouse; Stdout OShowCursor;
      Stdout (OText (rs "apple"))], ExitSuccess)
  /\ exists lines s pre,
       stdin (mkEnv (inl [rs "apple"; rs "banana"]) no_failures [Arrives (Key KEnter)])
       = inl lines /\ In s lines
  /\ [TtyRaw true; Stdout OEnterAlt; Stdout OEnableMouse;
      Stdout (OFrame [] [rs "apple"; rs "banana"] (Some 0));
      TtyRaw false; Stdout OLeaveAlt; Stdout ODisableMouse; Stdout OShowCursor;
      Stdout (OText (rs "apple"))]
     = pre ++ [TtyRaw false; Stdout OLeaveAlt; Stdout ODisableMouse;
               Stdout OShowCursor; Stdout (OText s)].
Proof.
  split; [reflexivity|]. apply main_success_prints_candidate. reflexivity.
Defined.

(** X11.  When reading standard input fails, the terminal is never touched:
    the only output is the error message on standard error, and the exit
    status is failure. *)
Theorem stdin_error_no_terminal (e : string) (tf : term_call -> option string)
  (ts : list tick) :
  main (mkEnv (inr e) tf ts) = ([Stderr e], ExitFailure).
Proof. reflexivity. Qed.

(** X12.  When switching to the alternate screen fails after raw mode was
    enabled, the session ends with failure and leaves raw mode on: nothing
    disables it again. *)
Theorem setup_error_leaves_raw_mode (lines : list rstring) (tf : term_call -> option string)
  (ts : list tick) (e : string)
  (Hraw : tf CEnableRaw = None) (Halt : tf CEnterAlt = Some e) :
  main (mkEnv (inl lines) tf ts) = ([TtyRaw true; Stderr e], ExitFailure).
Proof.
  unfold main, inner_main, read_lines, call, ret. simpl. rewrite Hraw, Halt. reflexivity.
Qed.

Lemma setup_error_leaves_raw_mode_witness :
  (fun c => match c with CEnterAlt => Some "not a terminal"%string | _ => None end) CEnableRaw = None
  /\ (fun c => match c with CEnterAlt => Some "not a terminal"%string | _ => None end) CEnterAlt
     = Some "not a terminal"%string
  /\ main (mkEnv (inl [rs "a"])
               (fun c => match c with CEnterAlt => Some "not a terminal"%string | _ => None end) [])
     = ([TtyRaw true; Stderr "not a terminal"], ExitFailure).
Proof.
  split; [reflexivity|]. split; [reflexivity|].
  apply setup_error_leaves_raw_mode; reflexivity.
Defined.

(** X13.  An iteration of the loop panics only on a mouse event, or on
    Enter when the recomputed result list is empty (the stale index 0). *)
Theorem loop_panics_only (st : State) (t : tick) (l : list log_entry) (m : string)
  (H : loop_iter st t = (l, Panic m)) :
  (t = Arrives Mouse /\ m = "not yet implemented"%string)
  \/ (t = Arrives (Key KEnter) /\ m = "index out of bounds"%string
      /\ exists st1, refresh st = Some st1 /\ filtered st1 = [] /\ list_state st1 = Some 0).
Proof.
  destruct (refresh_total st) as [st1 Hr].
  unfold loop_iter in H. rewrite Hr in H.
  destruct t as [e|e|ev]; try discriminate. injection H as _ H.
  destruct ev as [k| | | | |]; simpl in H; try discriminate.
  - destruct k; simpl in H; try discriminate;
      revert H; destruct (list_state st1) as [i|] eqn:Ei; intros H; try discriminate.
    + destruct (nth_error (filtered st1) i) eqn:En; [discriminate|].
      injection H as <-. right. split; [reflexivity|]. split; [reflexivity|].
      exists st1. split; [exact Hr|].
      pose proof (refresh_sel_ok _ _ Hr) as Hok. unfold sel_ok in Hok. rewrite Ei in Hok.
      apply nth_error_None in En. destruct Hok as [Hi|[Hi0 Hf]]; [lia|].
      subst i. split; [exact Hf|exact Ei].
    + destruct (0 <? i); discriminate.
    + destruct (filtered st1); discriminate.
    + destruct (i + 1 <? _); discriminate.
    + destruct (filtered st1); discriminate.
  - injection H as <-. left. split; reflexivity.
Qed.

Lemma loop_panics_only_witness :
  loop_iter (mkState (mkInput (rs "z") 1) [rs "a"] (Some 0) [rs "a"]) (Arrives (Key KEnter))
  = ([Stdout (OFrame (rs "z") [] (Some 0))], Panic "index out of bounds")
  /\ ((Arrives (Key KEnter) = Arrives Mouse
       /\ "index out of bounds"%string = "not yet implemented"%string)
      \/ (Arrives (Key KEnter) = Arrives (Key KEnter)
          /\ "index out of bounds"%string = "index out of bounds"%string
          /\ exists st1, refresh (mkState (mkInput (rs "z") 1) [rs "a"] (Some 0) [rs "a"]) = Some st1
             /\ filtered st1 = [] /\ list_state st1 = Some 0)).
Proof.
  split; [reflexivity|].
  apply (loop_panics_only _ _ [Stdout (OFrame (rs "z") [] (Some 0))]). reflexivity.
Defined.

(** X14.  An iteration ends the loop with an error only when drawing
    fails, when reading the next event fails, or on Esc with the message
    "User cancelled". *)
Theorem loop_errors_only (st : State) (t : tick) (l : list log_entry) (e : string)
  (H : loop_iter st t = (l, Fail e)) :
  t = DrawFails e \/ t = ReadFails e \/ (t = Arrives (Key KEsc) /\ e = "User cancelled"%string).
Proof.
  destruct (refresh_total st) as [st1 Hr].
  unfold loop_iter in H. rewrite Hr in H.
  destruct t as [e'|e'|ev]; injection H as _ H; try (subst; auto; fail).
  destruct ev as [k| | | | |]; simpl in H; try discriminate.
  destruct k; simpl in H; try discriminate;
    try (injection H as <-; right; right; split; reflexivity);
    revert H; destruct (list_state st1) as [i|]; intros H; try discriminate.
  - destruct (nth_error _ _); discriminate.
  - destruct (0 <? i); discriminate.
  - destruct (filtered st1); discriminate.
  - destruct (i + 1 <? _); discriminate.
  - destruct (filtered st1); discriminate.
Qed.

Lemma loop_errors_only_witness :
  loop_iter (init_state [rs "a"]) (ReadFails "broken pipe")
  = ([Stdout (OFrame [] [rs "a"] (Some 0))], Fail "broken pipe")
  /\ (ReadFails "broken pipe" = DrawFails "broken pipe"
      \/ ReadFails "broken pipe" = ReadFails "broken pipe"
      \/ (ReadFails "broken pipe" = Arrives (Key KEsc)
          /\ "broken pipe"%string = "User cancelled"%string)).
Proof.
  split; [reflexivity|]. apply (loop_errors_only (init_state [rs "a"]) _ [Stdout (OFrame [] [rs "a"] (Some 0))]).
  reflexivity.
Defined.

Lemma fuzzy_find_nil (q : rstring) : fuzzy_find q [] = Some [].
Proof. destruct q; reflexivity. Qed.

Lemma loop_iter_no_candidates (st : State) (t : tick) (l : list log_entry) (r : Step) :
  list_ st = [] -> list_state st = None -> loop_iter st t = (l, r) ->
  (forall s, r <> Return s)
  /\ (forall m, r = Panic m -> m = "not yet implemented"%string)
  /\ (forall st', r = Continue st' -> list_ st' = [] /\ list_state st' = None).
Proof.
  intros Hl Hs H. unfold loop_iter, refresh in H. rewrite Hl, fuzzy_find_nil, Hs in H.
  simpl in H.
  assert (Hr : exists r', r = r' /\ (forall s, r' <> Return s)
            /\ (forall m, r' = Panic m -> m = "not yet implemented"%string)
            /\ (forall st', r' = Continue st' -> list_ st' = [] /\ list_state st' = None)).
  { destruct t as [e|e|ev]; [| |destruct ev as [k| | | | |]; [destruct k| | | | |]];
      injection H as _ <-; eexists; split; try reflexivity; simpl;
      (split; [intros s0 Hc; discriminate Hc|]);
      (split; [intros m Hc; first [injection Hc as <-; reflexivity | discriminate Hc]|]);
      intros st' Hc; first [injection Hc as <-; split; reflexivity | discriminate Hc]. }
  destruct Hr as (r' & -> & Hr). exact Hr.
Qed.

(** X15.  With no candidate lines, the session can never end by
    confirmation: Enter never returns a value, and the loop never panics
    except on a mouse event. *)
Theorem empty_input_never_confirms (ts : list tick) (l : list log_entry) (r : Step)
  (Hrun : run_from ts (init_state []) = (l, r)) :
  (forall s, r <> Return s) /\ (forall m, r = Panic m -> m = "not yet implemented"%string).
Proof.
  assert (Hgen : forall ts st l r, list_ st = [] -> list_state st = None ->
            run_from ts st = (l, r) ->
            (forall s, r <> Return s) /\ (forall m, r = Panic m -> m = "not yet implemented"%string)).
  { clear. induction ts as [|t ts IH]; intros st l r Hl Hs H; simpl in H.
    - injection H as _ <-. split; congruence.
    - destruct (loop_iter st t) as [l1 r1] eqn:Eit.
      destruct (loop_iter_no_candidates _ _ _ _ Hl Hs Eit) as (Hret & Hpan & Hcont).
      destruct r1 as [st1| | |]; try (injection H as _ <-; now split).
      destruct (Hcont st1 eq_refl) as [Hl1 Hs1].
      destruct (run_from ts st1) as [l2 r2] eqn:E. injection H as _ <-.
      exact (IH st1 l2 r2 Hl1 Hs1 E). }
  exact (Hgen ts (init_state []) l r eq_refl eq_refl Hrun).
Qed.

Lemma empty_input_never_confirms_witness :
  run_from [Arrives (Key KDown); Arrives (Key KEnter)] (init_state [])
  = ([Stdout (OFrame [] [] None); Stdout (OFrame [] [] None)], Continue (init_state []))
  /\ (forall s, Continue (init_state []) <> Return s)
  /\ (forall m, Continue (init_state []) = Panic m -> m = "not yet implemented"%string).
Proof.
  split; [reflexivity|].
  apply (empty_input_never_confirms [Arrives (Key KDown); Arrives (Key KEnter)]
           [Stdout (OFrame [] [] None); Stdout (OFrame [] [] None)]).
  reflexivity.
Defined.
